(** * libpqxx: utility functions and the connection/transaction call gate

    A shallow embedding of [src/util.cxx] (object descriptions and the
    hex escape codec for binary data) and of
    [include/pqxx/internal/gates/connection-transaction.hxx] (the gate
    through which a transaction reaches its connection), with the
    properties the specification states about them. *)

From Stdlib Require Import ZArith Strings.Byte String Lia.
From stdpp Require Import base list.

(** ** Outcomes of C++ calls

    A call returns, throws [pqxx::failure] with a message, or leaves the
    bounds of the object it was handed, which C++ leaves undefined. *)
Inductive outcome (A : Type) : Type :=
| Return (a : A)
| Throw (what : string)
| Undefined.
Arguments Return {A} a.
Arguments Throw {A} what.
Arguments Undefined {A}.

(** Sequencing stops at the first call that does not return; it is
    written [x ← m; k] below. *)
#[global] Instance outcome_bind : MBind outcome := λ A B k m,
  match m with
  | Return a => k a
  | Throw what => Throw what
  | Undefined => Undefined
  end.

(** ** Characters, strings and raw buffers *)

(** Contents of a [std::string] or [std::string_view].  Capacity is not
    part of the contents. *)
Definition std_string : Type := list byte.

(** A character literal as the [int] it promotes to. *)
Definition lit (c : byte) : Z := Z.of_N (Byte.to_N c).

(** [static_cast<unsigned char>(c)]. *)
Definition uchar (c : byte) : Z := Z.of_N (Byte.to_N c).

(** A [char] read as [int] where [char] is signed. *)
Definition int_of_char (c : byte) : Z :=
  let n := Z.of_N (Byte.to_N c) in
  if (n <? 128)%Z then n else (n - 256)%Z.

(** [static_cast<std::byte>(i)]: the value modulo 256. *)
Definition byte_of_int (i : Z) : byte :=
  match Byte.of_N (Z.to_N (i mod 256)%Z) with
  | Some b => b
  | None => x00
  end.

(** A raw buffer together with the offset of a pointer into it. *)
Definition cursor : Type := list byte * nat.

(** [*here++ = c].  A store outside the buffer is undefined. *)
Definition put (c : byte) (w : cursor) : outcome cursor :=
  let '(buffer, here) := w in
  if decide (here < length buffer)%nat
  then Return (<[here := c]> buffer, S here)
  else Undefined.

(** Storing a run of characters one after the other. *)
Fixpoint put_all (cs : list byte) (w : cursor) : outcome cursor :=
  match cs with
  | [] => Return w
  | c :: cs => w ← put c w; put_all cs w
  end.

(** [here += sv.copy(here, count)]: copies [min(count, size)] characters. *)
Definition copy (sv : std_string) (count : nat) (w : cursor) : outcome cursor :=
  put_all (take count sv) w.

(** [buf.reserve(n)] changes the capacity only, for a request the string
    accepts; [limited.reserve] below has the limit. *)
Definition reserve (n : nat) (buf : std_string) : std_string := buf.

(** ** [pqxx::internal::describe] and [namedclass::description] *)

Definition describe (buf : std_string) (class_name obj_name : std_string)
    (headroom : nat) : outcome std_string :=
  match obj_name with
  | [] =>
      let start := length buf in
      let clen := length class_name in
      let budget := (start + clen)%nat in
      let buf := reserve (budget + headroom) buf in
      let buf := resize budget x00 buf in
      '(buf, _) ← copy class_name clen (buf, start);
      Return buf
  | _ =>
      let start := length buf in
      let clen := length class_name in
      let olen := length obj_name in
      let budget := (start + clen + 2 + olen + 1)%nat in
      let buf := reserve (budget + headroom) buf in
      let buf := resize budget x00 buf in
      let here := (buf, start) in
      here ← copy class_name clen here;
      here ← put " " here;
      here ← put "'" here;
      here ← copy obj_name olen here;
      '(buf, _) ← put "'" here;
      Return buf
  end.

(** The name and class name a [namedclass] object carries. *)
Record namedclass : Type := {
  classname : std_string;
  name : std_string
}.

Section Description.
(** The default argument of [describe]'s [headroom] is declared in the
    header; whatever it is, it only feeds [reserve]. *)
Variable default_headroom : nat.

Definition description (obj : namedclass) : outcome std_string :=
  match name obj with
  | [] => Return (classname obj)
  | _ =>
      let text : std_string := [] in
      describe text (classname obj) (name obj) default_headroom
  end.
End Description.

(** ** The hex escape codec *)

Definition hex : list byte :=
  ["0"; "1"; "2"; "3"; "4"; "5"; "6"; "7";
   "8"; "9"; "a"; "b"; "c"; "d"; "e"; "f"]%byte.

(** [hex[c]]; an index outside the table is undefined. *)
Definition hex_digit (c : Z) : outcome byte :=
  if (0 <=? c)%Z
  then match hex !! Z.to_nat c with
       | Some d => Return d
       | None => Undefined
       end
  else Undefined.

Definition nibble (c : Z) : Z :=
  if ((lit "0" <=? c) && (c <=? lit "9"))%Z then (c - lit "0")%Z
  else if ((lit "a" <=? c) && (c <=? lit "f"))%Z then (10 + (c - lit "a"))%Z
  else if ((lit "A" <=? c) && (c <=? lit "F"))%Z then (10 + (c - lit "A"))%Z
  else (-1)%Z.

(** The body of the [for] loop of the buffer-filling [esc_bin]. *)
Fixpoint esc_bin_loop (binary_data : std_string) (here : cursor) : outcome cursor :=
  match binary_data with
  | [] => Return here
  | byte :: binary_data =>
      let uc := uchar byte in
      d ← hex_digit (Z.shiftr uc 4);
      here ← put d here;
      d ← hex_digit (Z.land uc 15);
      here ← put d here;
      esc_bin_loop binary_data here
  end.

(** [void esc_bin(std::string_view binary_data, char buffer[]) noexcept] *)
Definition esc_bin_into (binary_data : std_string) (buffer : list byte)
    : outcome (list byte) :=
  let here := (buffer, 0%nat) in
  here ← put "\" here;
  here ← put "x" here;
  here ← esc_bin_loop binary_data here;
  '(buffer, _) ← put x00 here;
  Return buffer.

(** Modelled from the spec: [size_esc_bin] is declared in a header that is
    not among the sources.  The spec gives the buffer-filling variant a
    total of [3 + 2n] bytes for [n] input bytes, terminator included. *)
Definition size_esc_bin (binary_bytes : nat) : nat := (3 + 2 * binary_bytes)%nat.

(** Modelled from the spec: [size_unesc_bin] is declared in the same
    header.  The spec gives the output [(input_length - 2) / 2] bytes;
    no property below depends on its value at lengths under 2. *)
Definition size_unesc_bin (escaped_bytes : nat) : nat := ((escaped_bytes - 2) / 2)%nat.

(** [std::string esc_bin(std::string_view binary_data)] *)
Definition esc_bin (binary_data : std_string) : outcome std_string :=
  let bytes := size_esc_bin (length binary_data) in
  let buf : std_string := [] in
  let buf := resize bytes x00 buf in
  buf ← esc_bin_into binary_data buf;
  let buf := resize (bytes - 1) x00 buf in
  Return buf.

Definition truncated : string := "Binary data appears truncated.".
Definition invalid_length : string := "Invalid escaped binary length.".
Definition missing_prefix : string :=
  "Escaped binary data did not start with '\x'`.  Is the server or libpq too old?".
Definition invalid_hex : string := "Invalid hex-escaped data.".

(** [*in++] on the escaped text; reading at [end] is undefined. *)
Definition next (input : std_string) : outcome (byte * std_string) :=
  match input with
  | c :: input => Return (c, input)
  | [] => Undefined
  end.

(** The [while (in != end)] loop of [unesc_bin]; [input] is what lies
    between [in] and [end]. *)
Fixpoint unesc_bin_loop (input : std_string) (out : cursor) : outcome cursor :=
  match input with
  | [] => Return out
  | c :: input =>
      let hi := nibble (int_of_char c) in
      if (hi <? 0)%Z then Throw invalid_hex
      else
        match input with
        | [] => Undefined
        | c :: input =>
            let lo := nibble (int_of_char c) in
            if (lo <? 0)%Z then Throw invalid_hex
            else
              out ← put (byte_of_int (Z.lor (Z.shiftl hi 4) lo)) out;
              unesc_bin_loop input out
        end
  end.

(** [void unesc_bin(std::string_view escaped_data, std::byte buffer[])] *)
Definition unesc_bin_into (escaped_data : std_string) (buffer : list byte)
    : outcome (list byte) :=
  let in_size := length escaped_data in
  if decide (in_size < 2)%nat then Throw truncated
  else if negb (in_size mod 2 =? 0)%nat then Throw invalid_length
  else
    '(c, input) ← next escaped_data;
    if negb (Byte.eqb c "\") then Throw missing_prefix
    else
      '(c, input) ← next input;
      if negb (Byte.eqb c "x") then Throw missing_prefix
      else
        let out := (buffer, 0%nat) in
        '(buffer, _) ← unesc_bin_loop input out;
        Return buffer.

(** [std::string unesc_bin(std::string_view escaped_data)] *)
Definition unesc_bin (escaped_data : std_string) : outcome std_string :=
  let bytes := size_unesc_bin (length escaped_data) in
  let buf : std_string := [] in
  let buf := resize bytes x00 buf in
  unesc_bin_into escaped_data buf.

(** ** Calls on a connection

    A member function of the connection runs on the connection's state.
    It returns normally, lets an exception escape, or ends the program
    ([std::terminate]); the connection's state after the call is kept in
    every case. *)
Inductive completion (exn A : Type) : Type :=
| Returns (a : A)
| Throws (e : exn)
| Terminates.
Arguments Returns {exn A} a.
Arguments Throws {exn A} e.
Arguments Terminates {exn A}.

Definition call (exn conn A : Type) : Type := conn -> completion exn A * conn.

(** A function declared [noexcept]: an exception that would leave it ends
    the program instead. *)
Definition noexcept {exn conn A : Type} (m : call exn conn A) : call exn conn A :=
  fun c =>
    match m c with
    | (Throws _, c') => (Terminates, c')
    | r => r
    end.

(** The private member functions of [pqxx::connection] that the gate
    reaches.  The class itself is only declared in the gate's header, so
    its behaviour is a parameter: [result], [params] and the exceptions
    [exn] are whatever the connection uses, [transaction_base] stands for
    the identity of a transaction (a pointer in the source).
    [read_copy_line] fills the caller's [line], so it takes the old
    contents and gives the new ones with its result. *)
Module connection.
Class ops (result params exn transaction_base conn : Type) : Type := {
  exec : std_string -> call exn conn result;
  register_transaction : transaction_base -> call exn conn unit;
  unregister_transaction : transaction_base -> call exn conn unit;
  read_copy_line : std_string -> call exn conn (bool * std_string);
  write_copy_line : std_string -> call exn conn unit;
  end_copy_write : call exn conn unit;
  raw_get_var : std_string -> call exn conn std_string;
  raw_set_var : std_string -> std_string -> call exn conn unit;
  exec_prepared : std_string -> params -> call exn conn result;
  exec_params : std_string -> params -> call exn conn result
}.
End connection.

(** Modelled from the spec: [callgate<connection>] is declared in
    [callgate.hxx], which is not among the sources.  Every gate operation
    delegates to the connection, so the gate holds a reference to its
    home connection and [home()] gives it back. *)
Record callgate (conn : Type) : Type := super { home : conn }.
Arguments super {conn} home.
Arguments home {conn} c.

(** A member call through the reference [home()]: the connection the
    gate refers to is the one that changes. *)
Definition on_home {exn conn A : Type} (m : call exn conn A)
    : call exn (callgate conn) A :=
  fun x => let '(r, c) := m (home x) in (r, super c).

(** [pqxx::internal::gate::connection_transaction] *)
Module connection_transaction.
Section Gate.
Context {result params exn transaction_base conn : Type}.
Context {C : connection.ops result params exn transaction_base conn}.

Definition exec (query : std_string) : call exn (callgate conn) result :=
  on_home (connection.exec query).

Definition register_transaction (t : transaction_base)
    : call exn (callgate conn) unit :=
  on_home (connection.register_transaction t).

Definition unregister_transaction (t : transaction_base)
    : call exn (callgate conn) unit :=
  noexcept (on_home (connection.unregister_transaction t)).

Definition read_copy_line (line : std_string)
    : call exn (callgate conn) (bool * std_string) :=
  on_home (connection.read_copy_line line).

Definition write_copy_line (line : std_string) : call exn (callgate conn) unit :=
  on_home (connection.write_copy_line line).

Definition end_copy_write : call exn (callgate conn) unit :=
  on_home connection.end_copy_write.

Definition raw_get_var (var : std_string) : call exn (callgate conn) std_string :=
  on_home (connection.raw_get_var var).

Definition raw_set_var (var value : std_string) : call exn (callgate conn) unit :=
  on_home (connection.raw_set_var var value).

Definition exec_prepared (statement : std_string) (args : params)
    : call exn (callgate conn) result :=
  on_home (connection.exec_prepared statement args).

Definition exec_params (query : std_string) (args : params)
    : call exn (callgate conn) result :=
  on_home (connection.exec_params query args).
End Gate.
End connection_transaction.

(** ** The registration slot, in the specification's words *)

(** Modelled from the spec: [connection::register_transaction] and
    [connection::unregister_transaction] are not among the sources.  The
    spec gives the connection a single slot holding at most one
    transaction.  Registering fails with a protocol-misuse error when the
    slot is occupied and fills it otherwise.  Unregistering never signals
    an error: it empties the slot when the given transaction occupies it,
    and is a no-op that leaves a diagnostic when another one does. *)
Record session (transaction_base backend : Type) : Type := {
  slot : option transaction_base;
  diagnostics : list string;
  link : backend
}.
Arguments slot {transaction_base backend} s.
Arguments diagnostics {transaction_base backend} s.
Arguments link {transaction_base backend} s.

Section Registry.
Context {result params exn transaction_base backend : Type}.
Context `{EqDecision transaction_base}.
(** The protocol-misuse error of a second registration. *)
Variable already_registered : exn.
(** Everything but registration is the execution backend's business. *)
Variable B : connection.ops result params exn transaction_base backend.

(** Modelled from the spec: [connection::register_transaction], which is
    not among the sources.  It fails with the protocol-misuse error if
    the slot is non-empty and fills the slot otherwise. *)
Definition registry_register (t : transaction_base)
    : call exn (session transaction_base backend) unit :=
  fun s =>
    match slot s with
    | None => (Returns tt, {| slot := Some t; diagnostics := diagnostics s; link := link s |})
    | Some _ => (Throws already_registered, s)
    end.

(** Modelled from the spec: [connection::unregister_transaction], which
    is not among the sources.  It has no error path: it empties the slot
    of the given transaction, and when the identity does not match the
    occupant it is a defensive no-op that records a diagnostic. *)
Definition registry_unregister (t : transaction_base)
    : call exn (session transaction_base backend) unit :=
  fun s =>
    match slot s with
    | None => (Returns tt, s)
    | Some occupant =>
        if decide (occupant = t)
        then (Returns tt, {| slot := None; diagnostics := diagnostics s; link := link s |})
        else (Returns tt, {| slot := slot s;
                             diagnostics := "unregistering a transaction that is not registered"%string
                                              :: diagnostics s;
                             link := link s |})
    end.

(** A backend call made on the session's link. *)
Definition on_link {A : Type} (m : call exn backend A)
    : call exn (session transaction_base backend) A :=
  fun s =>
    let '(r, b) := m (link s) in
    (r, {| slot := slot s; diagnostics := diagnostics s; link := b |}).

#[local] Instance registry_connection
    : connection.ops result params exn transaction_base
        (session transaction_base backend) := {|
  connection.exec query := on_link (connection.exec query);
  connection.register_transaction := registry_register;
  connection.unregister_transaction := registry_unregister;
  connection.read_copy_line line := on_link (connection.read_copy_line line);
  connection.write_copy_line line := on_link (connection.write_copy_line line);
  connection.end_copy_write := on_link connection.end_copy_write;
  connection.raw_get_var var := on_link (connection.raw_get_var var);
  connection.raw_set_var var value := on_link (connection.raw_set_var var value);
  connection.exec_prepared statement args :=
    on_link (connection.exec_prepared statement args);
  connection.exec_params query args := on_link (connection.exec_params query args)
|}.
End Registry.

(** A connection whose link is down: every member function throws. *)
Definition connection_lost : string := "connection lost".

Definition broken_connection : connection.ops unit unit string nat unit := {|
  connection.exec _ := fun c => (Throws connection_lost, c);
  connection.register_transaction _ := fun c => (Throws connection_lost, c);
  connection.unregister_transaction _ := fun c => (Throws connection_lost, c);
  connection.read_copy_line _ := fun c => (Throws connection_lost, c);
  connection.write_copy_line _ := fun c => (Throws connection_lost, c);
  connection.end_copy_write := fun c => (Throws connection_lost, c);
  connection.raw_get_var _ := fun c => (Throws connection_lost, c);
  connection.raw_set_var _ _ := fun c => (Throws connection_lost, c);
  connection.exec_prepared _ _ := fun c => (Throws connection_lost, c);
  connection.exec_params _ _ := fun c => (Throws connection_lost, c)
|}.

(** The slot-keeping connection on that broken link, and a gate on it
    whose slot transaction 1 occupies. *)
Definition sample_registry
    : connection.ops unit unit string nat (session nat unit) :=
  registry_connection connection_lost broken_connection.

Definition occupied_gate : callgate (session nat unit) :=
  super {| slot := Some 1%nat; diagnostics := []; link := tt |}.

(** Whether a call let an exception escape. *)
Definition raises {exn A : Type} (r : completion exn A) : bool :=
  match r with
  | Throws _ => true
  | _ => false
  end.

(** A gate operation is a pure pass-through of a connection operation:
    on every gate it completes as the connection operation does on the
    gate's home connection, and leaves that connection in the same state. *)
Definition passes_through {exn conn A : Type}
    (g : call exn (callgate conn) A) (m : call exn conn A) : Prop :=
  forall x : callgate conn,
    fst (g x) = fst (m (home x)) /\ home (snd (g x)) = snd (m (home x)).

(** The same, except that an exception of the connection operation does
    not escape: the program ends there. *)
Definition passes_through_noexcept {exn conn A : Type}
    (g : call exn (callgate conn) A) (m : call exn conn A) : Prop :=
  forall x : callgate conn,
    fst (g x) = (if raises (fst (m (home x))) then Terminates else fst (m (home x)))
    /\ home (snd (g x)) = snd (m (home x)).

(** ** The escaped text format, in the specification's words

    These definitions follow the specification, not the code: the text is
    the two-character prefix followed by two hex digits per byte, most
    significant first. *)

#[global] Instance byte_eq_decision : EqDecision byte := Byte.byte_eq_dec.

Definition code (c : byte) : Z := Z.of_N (Byte.to_N c).

Definition is_digit (c : byte) : bool := ((48 <=? code c) && (code c <=? 57))%Z.
Definition is_lower_af (c : byte) : bool := ((97 <=? code c) && (code c <=? 102))%Z.
Definition is_upper_af (c : byte) : bool := ((65 <=? code c) && (code c <=? 70))%Z.

Definition is_hex_digit (c : byte) : bool :=
  is_digit c || is_lower_af c || is_upper_af c.

Definition is_lower_hex_digit (c : byte) : bool :=
  is_digit c || is_lower_af c.

(** The value of a hex digit, in either case. *)
Definition digit_value (c : byte) : Z :=
  if is_digit c then (code c - 48)%Z
  else if is_lower_af c then (code c - 97 + 10)%Z
  else if is_upper_af c then (code c - 65 + 10)%Z
  else 0%Z.

(** The lowercase hex digit of a value below 16. *)
Definition lower_hex (v : Z) : byte :=
  byte_of_int (if (v <? 10)%Z then 48 + v else 97 + (v - 10))%Z.

Definition prefix : std_string := ["\"; "x"]%byte.

Definition hex_pair (c : byte) : std_string :=
  [lower_hex (code c / 16)%Z; lower_hex (code c mod 16)%Z].

(** The hex digits of a byte sequence, two per byte, in order. *)
Definition hex_text (b : std_string) : std_string := flat_map hex_pair b.

(** The bytes a run of hex digit pairs denotes. *)
Fixpoint pair_values (digits : std_string) : std_string :=
  match digits with
  | h :: l :: digits => byte_of_int (16 * digit_value h + digit_value l)%Z :: pair_values digits
  | _ => []
  end.

(** Well-formed escaped text: at least the prefix, even length, the
    prefix itself, then hex digits only. *)
Definition well_formed (s : std_string) : bool :=
  bool_decide (2 <= length s)%nat
  && bool_decide (length s mod 2 = 0)%nat
  && bool_decide (take 2 s = prefix)
  && forallb is_hex_digit (drop 2 s).

(** Canonical escaped text: well-formed, with no uppercase digit. *)
Definition canonical (s : std_string) : bool :=
  well_formed s && forallb is_lower_hex_digit (drop 2 s).

(** ASCII lowercasing of one character and of a text. *)
Definition to_lower (c : byte) : byte :=
  if ((65 <=? code c) && (code c <=? 90))%Z then byte_of_int (code c + 32)%Z else c.

Definition lowercase (s : std_string) : std_string := map to_lower s.

(** The text that describes an object: the class name alone for a
    nameless object, otherwise the class name, a space and the quoted name. *)
Definition description_text (class_name obj_name : std_string) : std_string :=
  if decide (obj_name = []) then class_name
  else class_name ++ [" "; "'"]%byte ++ obj_name ++ ["'"]%byte.

(** ** [pqxx::describe_thread_safety] *)

(** The fields of [pqxx::thread_safety_model] that the function sets. *)
Module thread_safety.
Record thread_safety_model : Type := {
  safe_libpq : bool;
  safe_kerberos : bool;
  description : std_string
}.
End thread_safety.

Definition libpq_not_thread_safe : std_string :=
  list_byte_of_string "Using a libpq build that is not thread-safe." ++ [x0a].

Definition kerberos_not_thread_safe : std_string :=
  list_byte_of_string
    "Kerberos is not thread-safe.  If your application uses Kerberos, protect all calls to Kerberos or libpqxx using a global lock."
  ++ [x0a].

(** [PQisthreadsafe] is what libpq's function of that name returns;
    [fresh] is the default-initialised [model] the function starts from. *)
Definition describe_thread_safety (PQisthreadsafe : Z)
    (fresh : thread_safety.thread_safety_model)
    : thread_safety.thread_safety_model :=
  let model := fresh in
  let model :=
    if (PQisthreadsafe =? 0)%Z
    then
      let model := {| thread_safety.safe_libpq := false;
                      thread_safety.safe_kerberos := thread_safety.safe_kerberos model;
                      thread_safety.description := thread_safety.description model |} in
      {| thread_safety.safe_libpq := thread_safety.safe_libpq model;
         thread_safety.safe_kerberos := thread_safety.safe_kerberos model;
         thread_safety.description :=
           thread_safety.description model ++ libpq_not_thread_safe |}
    else
      {| thread_safety.safe_libpq := true;
         thread_safety.safe_kerberos := thread_safety.safe_kerberos model;
         thread_safety.description := thread_safety.description model |} in
  let model := {| thread_safety.safe_libpq := thread_safety.safe_libpq model;
                  thread_safety.safe_kerberos := false;
                  thread_safety.description := thread_safety.description model |} in
  let model := {| thread_safety.safe_libpq := thread_safety.safe_libpq model;
                  thread_safety.safe_kerberos := thread_safety.safe_kerberos model;
                  thread_safety.description :=
                    thread_safety.description model ++ kerberos_not_thread_safe |} in
  model.

(** The [int] values that are the code of a hex digit. *)
Definition is_hex_code (c : Z) : bool :=
  (((48 <=? c) && (c <=? 57)) || ((97 <=? c) && (c <=? 102))
   || ((65 <=? c) && (c <=? 70)))%Z.

(** ** [describe] within the limits of [std::size_t] and [std::string]

    [describe] above gives the contents of the buffer for requests the
    string accepts.  Here the limits are part of the model: [size_max]
    is the largest [std::size_t], on which the sizes are computed, and
    [max_size] is what [std::string::max_size()] returns.  Both belong to
    the implementation. *)

(** What a [std::length_error] is told by among the outcomes. *)
Definition length_error : string := "std::length_error".

Module limited.
Section Limits.
Variables (size_max max_size : nat).

(** [a + b] on [std::size_t]. *)
Definition plus (a b : nat) : nat := ((a + b) mod S size_max)%nat.

(** [buf.reserve(n)]: a request above [max_size()] throws
    [std::length_error]; any other changes the capacity only. *)
Definition reserve (n : nat) (buf : std_string) : outcome std_string :=
  if decide (max_size < n)%nat then Throw length_error else Return buf.

(** [buf.resize(n)]: a size above [max_size()] throws
    [std::length_error]; any other cuts the string or fills it up. *)
Definition resize (n : nat) (buf : std_string) : outcome std_string :=
  if decide (max_size < n)%nat then Throw length_error
  else Return (list.resize n x00 buf).

Definition describe (buf : std_string) (class_name obj_name : std_string)
    (headroom : nat) : outcome std_string :=
  match obj_name with
  | [] =>
      let start := length buf in
      let clen := length class_name in
      let budget := plus start clen in
      buf ← reserve (plus budget headroom) buf;
      buf ← resize budget buf;
      '(buf, _) ← copy class_name clen (buf, start);
      Return buf
  | _ =>
      let start := length buf in
      let clen := length class_name in
      let olen := length obj_name in
      let budget := plus (plus (plus (plus start clen) 2) olen) 1 in
      buf ← reserve (plus budget headroom) buf;
      buf ← resize budget buf;
      let here := (buf, start) in
      here ← copy class_name clen here;
      here ← put " " here;
      here ← put "'" here;
      here ← copy obj_name olen here;
      '(buf, _) ← put "'" here;
      Return buf
  end.
End Limits.
End limited.

(** * Properties *)

(** ** Stores through a pointer *)

Arguments put : simpl never.

Lemma bind_Return {A B : Type} (a : A) (k : A -> outcome B) :
  (Return a ≫= k) = k a.
Proof. reflexivity. Qed.

Lemma put_in_range (c : byte) (pre post : list byte) (old : byte) :
  put c (pre ++ old :: post, length pre) = Return (pre ++ c :: post, S (length pre)).
Proof.
  unfold put. rewrite decide_True.
  - f_equal. f_equal.
    replace (length pre) with (length pre + 0)%nat at 1 by lia.
    now rewrite insert_app_r.
  - rewrite length_app. simpl. lia.
Qed.

Lemma put_all_app (cs ds : list byte) (w : cursor) :
  put_all (cs ++ ds) w = (w ← put_all cs w; put_all ds w).
Proof.
  revert w. induction cs as [|c cs IH]; intros w; simpl; [reflexivity|].
  destruct (put c w) as [w'| |]; simpl; [apply IH | reflexivity | reflexivity].
Qed.

Lemma put_all_in_range (cs pre mid post : list byte) :
  length mid = length cs ->
  put_all cs (pre ++ mid ++ post, length pre)
  = Return (pre ++ cs ++ post, (length pre + length cs)%nat).
Proof.
  revert pre mid. induction cs as [|c cs IH]; intros pre mid Hlen.
  - destruct mid; [|discriminate]. simpl. now rewrite Nat.add_0_r.
  - destruct mid as [|old mid]; [discriminate|]. simpl.
    rewrite (put_in_range c pre (mid ++ post) old). rewrite bind_Return.
    specialize (IH (pre ++ [c]) mid).
    rewrite length_app in IH. simpl in IH.
    rewrite Nat.add_1_r in IH. rewrite <- !app_assoc in IH. simpl in IH.
    rewrite IH by (simpl in Hlen; lia).
    f_equal. f_equal. lia.
Qed.

Lemma put_all_out_of_range (cs : list byte) (buffer : list byte) (here : nat) :
  (here <= length buffer < here + length cs)%nat ->
  put_all cs (buffer, here) = Undefined.
Proof.
  revert buffer here. induction cs as [|c cs IH]; intros buffer here [Hlo Hhi].
  - simpl in Hhi. lia.
  - simpl. unfold put. destruct (decide (here < length buffer)%nat) as [Hlt|Hge].
    + rewrite bind_Return. apply IH. rewrite length_insert. simpl in Hhi. lia.
    + reflexivity.
Qed.

(** Storing [cs] at the start of a buffer: it fits, or the buffer is overrun. *)
Lemma put_all_from_start (cs buffer : list byte) :
  put_all cs (buffer, 0%nat)
  = if decide (length cs <= length buffer)%nat
    then Return (cs ++ drop (length cs) buffer, length cs)
    else Undefined.
Proof.
  destruct (decide (length cs <= length buffer)%nat) as [Hle|Hgt].
  - rewrite <- (take_drop (length cs) buffer) at 1.
    pose proof (put_all_in_range cs [] (take (length cs) buffer)
                  (drop (length cs) buffer)) as H.
    simpl in H. apply H. rewrite length_take. lia.
  - apply put_all_out_of_range. lia.
Qed.

(** ** Digits *)

Lemma hex_digit_hi (c : byte) :
  hex_digit (Z.shiftr (uchar c) 4) = Return (lower_hex (code c / 16)).
Proof. destruct c; reflexivity. Qed.

Lemma hex_digit_lo (c : byte) :
  hex_digit (Z.land (uchar c) 15) = Return (lower_hex (code c mod 16)).
Proof. destruct c; reflexivity. Qed.

Lemma nibble_digit (c : byte) :
  nibble (int_of_char c) = if is_hex_digit c then digit_value c else (-1)%Z.
Proof. destruct c; reflexivity. Qed.

(** Reading [char] as unsigned instead gives the same nibble. *)
Lemma nibble_unsigned_char (c : byte) :
  nibble (uchar c) = nibble (int_of_char c).
Proof. destruct c; reflexivity. Qed.

Lemma digit_value_range (c : byte) : (0 <= digit_value c < 16)%Z.
Proof. destruct c; vm_compute; split; congruence. Qed.

Lemma lor_shiftl_nibbles (hi lo : Z) :
  (0 <= hi < 16)%Z -> (0 <= lo < 16)%Z ->
  Z.lor (Z.shiftl hi 4) lo = (16 * hi + lo)%Z.
Proof.
  intros Hhi Hlo.
  assert (Hh : ∃ n : nat, (n < 16)%nat ∧ hi = Z.of_nat n)
    by (exists (Z.to_nat hi); lia).
  assert (Hl : ∃ n : nat, (n < 16)%nat ∧ lo = Z.of_nat n)
    by (exists (Z.to_nat lo); lia).
  destruct Hh as (h & Hh & ->), Hl as (l & Hl & ->).
  do 16 (destruct h as [|h]; [do 16 (destruct l as [|l]; [reflexivity|]); lia|]).
  lia.
Qed.

Lemma pair_values_hex_pair (c : byte) (digits : std_string) :
  pair_values (hex_pair c ++ digits) = c :: pair_values digits.
Proof. destruct c; reflexivity. Qed.

Lemma hex_pair_lower (c : byte) : forallb is_lower_hex_digit (hex_pair c) = true.
Proof. destruct c; reflexivity. Qed.

Lemma is_lower_hex_is_hex (c : byte) :
  is_lower_hex_digit c = true -> is_hex_digit c = true.
Proof. unfold is_lower_hex_digit, is_hex_digit. intros ->. reflexivity. Qed.

Lemma to_lower_hex_digit (c : byte) :
  is_hex_digit (to_lower c) = is_hex_digit c.
Proof. destruct c; reflexivity. Qed.

Lemma to_lower_digit_value (c : byte) :
  is_hex_digit c = true -> digit_value (to_lower c) = digit_value c.
Proof. destruct c; vm_compute; congruence. Qed.


(** ** The encoder *)

Lemma hex_text_cons (c : byte) (b : std_string) :
  hex_text (c :: b) = hex_pair c ++ hex_text b.
Proof. reflexivity. Qed.

Lemma length_hex_text (b : std_string) : length (hex_text b) = (2 * length b)%nat.
Proof. induction b as [|c b IH]; simpl; lia. Qed.

Lemma hex_text_lower (b : std_string) :
  forallb is_lower_hex_digit (hex_text b) = true.
Proof.
  induction b as [|c b IH]; [reflexivity|].
  rewrite hex_text_cons, forallb_app, IH, hex_pair_lower.
  reflexivity.
Qed.

Lemma pair_values_hex_text (b : std_string) : pair_values (hex_text b) = b.
Proof.
  induction b as [|c b IH]; [reflexivity|].
  rewrite hex_text_cons, pair_values_hex_pair.
  now rewrite IH.
Qed.

(** The loop stores the hex digits of the data, and nothing else. *)
Lemma esc_bin_loop_put_all (binary_data : std_string) (here : cursor) :
  esc_bin_loop binary_data here = put_all (hex_text binary_data) here.
Proof.
  revert here. induction binary_data as [|c b IH]; intros here; [reflexivity|].
  simpl esc_bin_loop. rewrite hex_digit_hi, hex_digit_lo.
  rewrite hex_text_cons. unfold hex_pair. simpl put_all.
  rewrite bind_Return.
  destruct (put _ here) as [w1| |]; simpl; [|reflexivity|reflexivity].
  destruct (put _ w1) as [w2| |]; simpl; [|reflexivity|reflexivity].
  apply IH.
Qed.

Lemma esc_bin_into_put_all (binary_data : std_string) (buffer : list byte) :
  esc_bin_into binary_data buffer
  = ('(buffer, _) ← put_all (prefix ++ hex_text binary_data ++ [x00]) (buffer, 0%nat);
     Return buffer).
Proof.
  unfold esc_bin_into, prefix. simpl app. simpl put_all.
  destruct (put "\" (buffer, 0%nat)) as [w1| |]; simpl; [|reflexivity|reflexivity].
  destruct (put "x" w1) as [w2| |]; simpl; [|reflexivity|reflexivity].
  rewrite esc_bin_loop_put_all, put_all_app.
  destruct (put_all _ w2) as [w3| |]; simpl; [|reflexivity|reflexivity].
  destruct (put x00 w3) as [[w4 ?]| |]; reflexivity.
Qed.

Lemma esc_bin_into_spec (binary_data : std_string) (buffer : list byte) :
  esc_bin_into binary_data buffer
  = if decide (3 + 2 * length binary_data <= length buffer)%nat
    then Return (prefix ++ hex_text binary_data ++ [x00]
                   ++ drop (3 + 2 * length binary_data) buffer)
    else Undefined.
Proof.
  rewrite esc_bin_into_put_all, put_all_from_start.
  assert (Hlen : length (prefix ++ hex_text binary_data ++ [x00])
                 = (3 + 2 * length binary_data)%nat).
  { rewrite !length_app, length_hex_text. simpl. lia. }
  rewrite Hlen.
  destruct (decide _); [|reflexivity].
  simpl. now rewrite <- !app_assoc.
Qed.

Lemma esc_bin_spec (binary_data : std_string) :
  esc_bin binary_data = Return (prefix ++ hex_text binary_data).
Proof.
  unfold esc_bin, size_esc_bin.
  rewrite esc_bin_into_spec.
  rewrite decide_True by (rewrite length_resize; lia).
  rewrite bind_Return. f_equal.
  rewrite !app_assoc. rewrite <- app_assoc.
  apply resize_app.
  rewrite !length_app, length_hex_text. simpl. lia.
Qed.

(** ** The decoder *)

Lemma pair_ind (P : std_string -> Prop) :
  P [] -> (forall c, P [c]) -> (forall h l s, P s -> P (h :: l :: s)) ->
  forall s, P s.
Proof.
  intros Hnil Hone Hstep.
  assert (H : forall s, P s /\ forall c, P (c :: s)).
  { induction s as [|c s [IH1 IH2]]; split; auto. }
  intros s. apply H.
Qed.

Lemma mod2_SS (n : nat) : (S (S n) mod 2 = n mod 2)%nat.
Proof.
  change (S (S n)) with (1 * 2 + n)%nat.
  now rewrite Nat.add_comm, Nat.Div0.mod_add.
Qed.

Lemma length_pair_values (digits : std_string) :
  length (pair_values digits) = (length digits / 2)%nat.
Proof.
  induction digits as [| c | h l s IH] using pair_ind; [reflexivity..|].
  cbn [pair_values length]. rewrite IH.
  change (S (S (length s))) with (1 * 2 + length s)%nat.
  rewrite Nat.add_comm, Nat.div_add by lia. lia.
Qed.

Lemma digit_not_negative (c : byte) : (digit_value c <? 0)%Z = false.
Proof. pose proof (digit_value_range c). lia. Qed.

(** The value the decoder stores for a pair of hex digits. *)
Lemma stored_pair_value (h l : byte) :
  byte_of_int (Z.lor (Z.shiftl (digit_value h) 4) (digit_value l))
  = byte_of_int (16 * digit_value h + digit_value l).
Proof.
  now rewrite lor_shiftl_nibbles by apply digit_value_range.
Qed.

(** On text of even length the loop either stores the value of each
    pair of digits or throws at the first character that is no digit. *)
Lemma unesc_bin_loop_spec (input : std_string) (buffer : list byte) (here : nat) :
  (length input mod 2 = 0)%nat ->
  (here + length (pair_values input) <= length buffer)%nat ->
  unesc_bin_loop input (buffer, here)
  = if forallb is_hex_digit input
    then put_all (pair_values input) (buffer, here)
    else Throw invalid_hex.
Proof.
  revert buffer here.
  induction input as [| c | h l s IH] using pair_ind; intros buffer here Heven Hfit.
  - reflexivity.
  - discriminate.
  - cbn [unesc_bin_loop forallb pair_values put_all].
    rewrite !nibble_digit.
    destruct (is_hex_digit h); [|reflexivity].
    rewrite digit_not_negative.
    destruct (is_hex_digit l); [|reflexivity].
    rewrite digit_not_negative, stored_pair_value.
    cbn [andb]. cbn [pair_values length] in Hfit.
    unfold put. rewrite decide_True by lia. rewrite !bind_Return.
    apply IH.
    + cbn [length] in Heven. now rewrite mod2_SS in Heven.
    + rewrite length_insert. lia.
Qed.

Lemma well_formed_inv (s : std_string) :
  well_formed s = true ->
  exists digits, s = prefix ++ digits
    /\ (length digits mod 2 = 0)%nat
    /\ forallb is_hex_digit digits = true.
Proof.
  unfold well_formed. rewrite !andb_true_iff, !bool_decide_eq_true.
  intros [[[Hlen Heven] Hpre] Hhex].
  exists (drop 2 s). split; [|split].
  - rewrite <- Hpre. symmetry. apply take_drop.
  - destruct s as [|c0 [|c1 s]]; cbn [length drop] in *; try lia.
    now rewrite mod2_SS in Heven.
  - exact Hhex.
Qed.

Lemma well_formed_prefixed (digits : std_string) :
  well_formed (prefix ++ digits)
  = bool_decide (length digits mod 2 = 0)%nat && forallb is_hex_digit digits.
Proof.
  unfold well_formed, prefix. cbn [app length take drop].
  rewrite (bool_decide_eq_true_2 (2 <= _)%nat) by lia.
  rewrite (bool_decide_eq_true_2 (_ = _ :> list byte)) by reflexivity.
  rewrite mod2_SS, andb_true_r. reflexivity.
Qed.

(** What the buffer-filling decoder does on text that has the prefix, in
    a buffer with room for one byte per pair of digits. *)
Lemma unesc_bin_into_prefixed (digits : std_string) (buffer : list byte) :
  (length digits mod 2 = 0)%nat ->
  (length (pair_values digits) <= length buffer)%nat ->
  unesc_bin_into (prefix ++ digits) buffer
  = if forallb is_hex_digit digits
    then Return (pair_values digits ++ drop (length (pair_values digits)) buffer)
    else Throw invalid_hex.
Proof.
  intros Heven Hfit. unfold unesc_bin_into, prefix. cbn [app length next].
  rewrite decide_False by lia.
  rewrite mod2_SS, Heven.
  cbn [Nat.eqb negb]. rewrite bind_Return.
  replace (Byte.eqb "\" "\") with true by reflexivity.
  cbn [negb next]. rewrite bind_Return.
  replace (Byte.eqb "x" "x") with true by reflexivity.
  cbn [negb].
  rewrite unesc_bin_loop_spec by (assumption || lia).
  destruct (forallb is_hex_digit digits); [|reflexivity].
  rewrite put_all_from_start, decide_True by assumption.
  reflexivity.
Qed.

Lemma unesc_bin_prefixed (digits : std_string) :
  (length digits mod 2 = 0)%nat ->
  unesc_bin (prefix ++ digits)
  = if forallb is_hex_digit digits
    then Return (pair_values digits)
    else Throw invalid_hex.
Proof.
  intros Heven. unfold unesc_bin, size_unesc_bin.
  assert (Hsize : ((length (prefix ++ digits) - 2) / 2)%nat = length (pair_values digits)).
  { rewrite length_app, length_pair_values. change (length prefix) with 2%nat.
    f_equal. lia. }
  rewrite Hsize, unesc_bin_into_prefixed by (rewrite ?length_resize; auto).
  destruct (forallb is_hex_digit digits); [|reflexivity].
  f_equal. rewrite drop_ge by (rewrite length_resize; lia).
  apply app_nil_r.
Qed.

Lemma lower_hex_cases (c : byte) :
  is_lower_hex_digit c = true ->
  exists v : nat, (v < 16)%nat /\ c = lower_hex (Z.of_nat v).
Proof.
  intros H. exists (Z.to_nat (digit_value c)). split.
  - pose proof (digit_value_range c). lia.
  - destruct c; try discriminate H; reflexivity.
Qed.

Lemma hex_pair_pair_value (h l : byte) :
  is_lower_hex_digit h = true -> is_lower_hex_digit l = true ->
  hex_pair (byte_of_int (16 * digit_value h + digit_value l)) = [h; l].
Proof.
  intros Hh Hl.
  destruct (lower_hex_cases h Hh) as (i & Hi & ->).
  destruct (lower_hex_cases l Hl) as (j & Hj & ->).
  do 16 (destruct i as [|i]; [do 16 (destruct j as [|j]; [reflexivity|]); lia|]).
  lia.
Qed.

Lemma hex_text_pair_values (digits : std_string) :
  (length digits mod 2 = 0)%nat ->
  forallb is_lower_hex_digit digits = true ->
  hex_text (pair_values digits) = digits.
Proof.
  induction digits as [| c | h l s IH] using pair_ind; intros Heven Hlow.
  - reflexivity.
  - discriminate.
  - cbn [forallb] in Hlow. rewrite !andb_true_iff in Hlow.
    destruct Hlow as (Hh & Hl & Hs).
    cbn [pair_values]. rewrite hex_text_cons, hex_pair_pair_value by assumption.
    cbn [length] in Heven. rewrite mod2_SS in Heven.
    now rewrite IH.
Qed.

Lemma forallb_lower_is_hex (digits : std_string) :
  forallb is_lower_hex_digit digits = true -> forallb is_hex_digit digits = true.
Proof.
  induction digits as [|c s IH]; [reflexivity|].
  cbn [forallb]. rewrite !andb_true_iff. intros [Hc Hs].
  split; [now apply is_lower_hex_is_hex | auto].
Qed.

Lemma lowercase_hex_digits (digits : std_string) :
  forallb is_hex_digit (lowercase digits) = forallb is_hex_digit digits.
Proof.
  induction digits as [|c s IH]; [reflexivity|].
  unfold lowercase in *. cbn [map forallb]. now rewrite to_lower_hex_digit, IH.
Qed.

Lemma lowercase_pair_values (digits : std_string) :
  forallb is_hex_digit digits = true ->
  pair_values (lowercase digits) = pair_values digits.
Proof.
  induction digits as [| c | h l s IH] using pair_ind; intros Hhex.
  - reflexivity.
  - reflexivity.
  - cbn [forallb] in Hhex. rewrite !andb_true_iff in Hhex.
    destruct Hhex as (Hh & Hl & Hs).
    unfold lowercase in *. cbn [map pair_values].
    now rewrite !to_lower_digit_value, IH.
Qed.

Lemma lowercase_prefixed (digits : std_string) :
  lowercase (prefix ++ digits) = prefix ++ lowercase digits.
Proof. reflexivity. Qed.

Lemma length_lowercase (s : std_string) : length (lowercase s) = length s.
Proof. apply length_map. Qed.

(** ** Descriptions *)

Lemma describe_spec (buf class_name obj_name : std_string) (headroom : nat) :
  describe buf class_name obj_name headroom
  = Return (buf ++ description_text class_name obj_name).
Proof.
  unfold describe, description_text, reserve, copy.
  destruct obj_name as [|o obj_name].
  - rewrite decide_True by reflexivity.
    rewrite take_ge by lia.
    rewrite resize_ge by lia.
    replace (length buf + length class_name - length buf)%nat
      with (length class_name) by lia.
    pose proof (put_all_in_range class_name buf
                  (replicate (length class_name) x00) []) as H.
    rewrite app_nil_r in H. rewrite H by apply length_replicate.
    rewrite bind_Return. now rewrite app_nil_r.
  - rewrite decide_False by discriminate.
    generalize (o :: obj_name). intros name.
    rewrite !take_ge by lia.
    set (w := (resize _ _ _, _)).
    transitivity ('(buf, _) ← put_all (class_name ++ [" "; "'"]%byte ++ name ++ ["'"]%byte) w;
                  Return buf).
    + rewrite put_all_app.
      destruct (put_all class_name w) as [w1| |]; simpl; [|reflexivity|reflexivity].
      destruct (put " " w1) as [w2| |]; simpl; [|reflexivity|reflexivity].
      destruct (put "'" w2) as [w3| |]; simpl; [|reflexivity|reflexivity].
      rewrite put_all_app.
      destruct (put_all name w3) as [w4| |]; simpl; [|reflexivity|reflexivity].
      destruct (put "'" w4) as [[w5 ?]| |]; reflexivity.
    + subst w. rewrite resize_ge by lia.
      set (text := class_name ++ _).
      pose proof (put_all_in_range text buf
                    (replicate (length text) x00) []) as H.
      rewrite app_nil_r in H.
      replace (length buf + length class_name + 2 + length name + 1 - length buf)%nat
        with (length text)
        by (subst text; rewrite !length_app; simpl; lia).
      rewrite H by apply length_replicate.
      rewrite bind_Return. now rewrite app_nil_r.
Qed.

(** ** The gate *)

Lemma on_home_passes_through {exn conn A : Type} (m : call exn conn A) :
  passes_through (on_home m) m.
Proof.
  intros x. unfold on_home. destruct (m (home x)) as [r c]. split; reflexivity.
Qed.

Lemma noexcept_on_home {exn conn A : Type} (m : call exn conn A) :
  passes_through_noexcept (noexcept (on_home m)) m.
Proof.
  intros x. unfold noexcept, on_home.
  destruct (m (home x)) as [[a|e|] c]; split; reflexivity.
Qed.

Lemma noexcept_never_raises {exn conn A : Type} (m : call exn conn A) (c : conn) :
  raises (fst (noexcept m c)) = false.
Proof.
  unfold noexcept. destruct (m c) as [[a|e|] c']; reflexivity.
Qed.

(** * The claims *)

(** ** Binary data codec *)

(** C1.  Round trip: for every byte sequence [b], the empty one and those
    with null bytes included, encoding [b] succeeds and decoding the text
    it gives succeeds with [b] again.  The same holds of the
    buffer-filling variants, given buffers with room for their output:
    the text stored before the terminator decodes to [b], at the start
    of the output buffer. *)
Theorem unesc_bin_esc_bin (b : std_string) (text_buffer byte_buffer : list byte) :
  (text ← esc_bin b; unesc_bin text) = Return b
  /\ ((3 + 2 * length b <= length text_buffer)%nat ->
      (length b <= length byte_buffer)%nat ->
      exists filled : list byte,
        esc_bin_into b text_buffer = Return filled
        /\ unesc_bin_into (take (2 + 2 * length b) filled) byte_buffer
           = Return (b ++ drop (length b) byte_buffer)).
Proof.
  assert (Heven : (length (hex_text b) mod 2 = 0)%nat)
    by (rewrite length_hex_text, Nat.mul_comm; apply Nat.Div0.mod_mul).
  pose proof (forallb_lower_is_hex _ (hex_text_lower b)) as Hhex.
  split.
  - rewrite esc_bin_spec, bind_Return.
    rewrite unesc_bin_prefixed by assumption.
    now rewrite Hhex, pair_values_hex_text.
  - intros Htext Hbytes. eexists. split.
    + rewrite esc_bin_into_spec. now rewrite decide_True.
    + rewrite app_assoc.
      rewrite take_app_length'
        by (rewrite length_app, length_hex_text; reflexivity).
      rewrite unesc_bin_into_prefixed
        by (rewrite ?pair_values_hex_text; assumption).
      now rewrite Hhex, pair_values_hex_text.
Qed.

Lemma unesc_bin_esc_bin_witness :
  ((3 + 2 * length [x00; "A"]%byte <= length (replicate 8 xff))%nat
   /\ (length [x00; "A"]%byte <= length [xff; xff; xff])%nat)
  /\ exists filled : list byte,
       esc_bin_into [x00; "A"]%byte (replicate 8 xff) = Return filled
       /\ unesc_bin_into (take (2 + 2 * length [x00; "A"]%byte) filled) [xff; xff; xff]
          = Return ([x00; "A"]%byte ++ drop (length [x00; "A"]%byte) [xff; xff; xff]).
Proof.
  split; [split; vm_compute; lia|].
  apply (unesc_bin_esc_bin [x00; "A"]%byte (replicate 8 xff) [xff; xff; xff]);
    vm_compute; lia.
Defined.

Example unesc_bin_esc_bin_empty : (text ← esc_bin []; unesc_bin text) = Return [].
Proof. reflexivity. Qed.

Example unesc_bin_esc_bin_nulls :
  (text ← esc_bin [x00; "a"; x00; xff]%byte; unesc_bin text)
  = Return [x00; "a"; x00; xff]%byte.
Proof. reflexivity. Qed.

Example esc_bin_Hello :
  esc_bin ["H"; "e"; "l"; "l"; "o"]%byte =
  Return ["\"; "x"; "4"; "8"; "6"; "5"; "6"; "c"; "6"; "c"; "6"; "f"]%byte.
Proof. reflexivity. Qed.

Example unesc_bin_Hello :
  unesc_bin ["\"; "x"; "4"; "8"; "6"; "5"; "6"; "C"; "6"; "c"; "6"; "F"]%byte =
  Return ["H"; "e"; "l"; "l"; "o"]%byte.
Proof. reflexivity. Qed.

Example unesc_bin_into_short : unesc_bin_into ["\"]%byte [] = Throw truncated.
Proof. reflexivity. Qed.

Example unesc_bin_into_odd : unesc_bin_into ["\"; "x"; "0"]%byte [x00] = Throw invalid_length.
Proof. reflexivity. Qed.

Example unesc_bin_into_noprefix :
  unesc_bin_into ["x"; "x"; "0"; "0"]%byte [x00] = Throw missing_prefix.
Proof. reflexivity. Qed.

Example unesc_bin_into_zz :
  unesc_bin_into ["\"; "x"; "z"; "z"]%byte [x00] = Throw invalid_hex.
Proof. reflexivity. Qed.

Example unesc_bin_into_empty : unesc_bin_into ["\"; "x"]%byte [] = Return [].
Proof. reflexivity. Qed.

Lemma take_2_prefix (s : std_string) :
  take 2 s = prefix -> s = prefix ++ drop 2 s.
Proof. intros <-. symmetry. apply take_drop. Qed.

Lemma unesc_bin_into_bad_prefix (s : std_string) (buffer : list byte) :
  (2 <= length s)%nat -> (length s mod 2 = 0)%nat -> take 2 s <> prefix ->
  unesc_bin_into s buffer = Throw missing_prefix.
Proof.
  intros Hlen Heven Hpre. unfold unesc_bin_into.
  rewrite decide_False by lia. rewrite Heven. cbn [Nat.eqb negb].
  destruct s as [|c0 [|c1 s]]; cbn [length] in Hlen; try lia.
  cbn [next]. rewrite bind_Return.
  destruct (Byte.eqb c0 "\") eqn:E0; [|reflexivity].
  cbn [negb next]. rewrite bind_Return.
  destruct (Byte.eqb c1 "x") eqn:E1; [|reflexivity].
  apply Byte.byte_dec_bl in E0, E1. subst. now contradiction Hpre.
Qed.

(** C2.  Validation by the decoder, in a buffer with room for the
    output.  The checks come in this order: fewer than two characters
    (truncated), odd length, a start other than the prefix, a character
    that is no hex digit; the four errors are distinct.  Text that
    passes them all decodes to [(length s - 2) / 2] bytes, which is also
    what the allocating variant returns; text that is not well-formed
    always throws. *)
Theorem unesc_bin_validation (s : std_string) (buffer : list byte) :
  ((length s - 2) / 2 <= length buffer)%nat ->
  unesc_bin_into s buffer
  = (if decide (length s < 2)%nat then Throw truncated
     else if decide (length s mod 2 <> 0)%nat then Throw invalid_length
     else if decide (take 2 s <> prefix) then Throw missing_prefix
     else if forallb is_hex_digit (drop 2 s)
          then Return (pair_values (drop 2 s) ++ drop ((length s - 2) / 2) buffer)
          else Throw invalid_hex)
  /\ length (pair_values (drop 2 s)) = ((length s - 2) / 2)%nat
  /\ NoDup [truncated; invalid_length; missing_prefix; invalid_hex]
  /\ (if well_formed s
      then unesc_bin s = Return (pair_values (drop 2 s))
      else exists what, unesc_bin_into s buffer = Throw what).
Proof.
  intros Hfit.
  assert (Hout : length (pair_values (drop 2 s)) = ((length s - 2) / 2)%nat).
  { now rewrite length_pair_values, length_drop. }
  assert (Hmain : unesc_bin_into s buffer
    = (if decide (length s < 2)%nat then Throw truncated
       else if decide (length s mod 2 <> 0)%nat then Throw invalid_length
       else if decide (take 2 s <> prefix) then Throw missing_prefix
       else if forallb is_hex_digit (drop 2 s)
            then Return (pair_values (drop 2 s) ++ drop ((length s - 2) / 2) buffer)
            else Throw invalid_hex)).
  { destruct (decide (length s < 2)%nat) as [Hshort|Hlen].
    { unfold unesc_bin_into. now rewrite decide_True. }
    destruct (decide (length s mod 2 <> 0)%nat) as [Hodd|Heven].
    { unfold unesc_bin_into. rewrite decide_False by assumption.
      apply Nat.eqb_neq in Hodd. now rewrite Hodd. }
    assert (Heven' : (length s mod 2 = 0)%nat) by lia.
    destruct (decide (take 2 s <> prefix)) as [Hbad|Hpre].
    { apply unesc_bin_into_bad_prefix; [lia | assumption | assumption]. }
    assert (Hs : s = prefix ++ drop 2 s).
    { apply take_2_prefix. destruct (decide (take 2 s = prefix)); tauto. }
    assert (Hd : (length (drop 2 s) mod 2 = 0)%nat).
    { destruct s as [|c0 [|c1 s']]; cbn [length drop] in *; try lia.
      now rewrite mod2_SS in Heven'. }
    rewrite Hs at 1.
    rewrite unesc_bin_into_prefixed by (rewrite ?Hout; assumption).
    now rewrite Hout. }
  split; [exact Hmain|]. split; [exact Hout|]. split.
  { repeat (apply NoDup_cons; split;
              [intros H; repeat (apply elem_of_cons in H as [H|H]; [discriminate H|]);
               now apply elem_of_nil in H|]).
    apply NoDup_nil_2. }
  destruct (well_formed s) eqn:Hwf.
  - destruct (well_formed_inv s Hwf) as (digits & -> & Heven & Hhex).
    rewrite unesc_bin_prefixed by assumption. now rewrite Hhex.
  - rewrite Hmain. unfold well_formed in Hwf.
    destruct (decide (length s < 2)%nat); [eauto|].
    destruct (decide (length s mod 2 <> 0)%nat); [eauto|].
    destruct (decide (take 2 s <> prefix)); [eauto|].
    destruct (forallb is_hex_digit (drop 2 s)); [|eauto].
    exfalso.
    rewrite !bool_decide_eq_true_2 in Hwf; [discriminate| | |]; try lia.
    destruct (decide (take 2 s = prefix)); tauto.
Qed.

Lemma unesc_bin_validation_witness :
  ((length ["\"; "x"; "4"; "8"; "z"; "0"]%byte - 2) / 2 <= length [x00; x00])%nat
  /\ unesc_bin_into ["\"; "x"; "4"; "8"; "z"; "0"]%byte [x00; x00] = Throw invalid_hex.
Proof.
  split; [vm_compute; lia|].
  apply (unesc_bin_validation ["\"; "x"; "4"; "8"; "z"; "0"]%byte [x00; x00]).
  vm_compute; lia.
Defined.

Lemma hex_pair_digits (c : byte) :
  exists h l : byte,
    hex_pair c = [h; l]
    /\ is_lower_hex_digit h = true /\ is_lower_hex_digit l = true
    /\ (16 * digit_value h + digit_value l)%Z = code c.
Proof. destruct c; do 2 eexists; repeat split; reflexivity. Qed.

(** C3.  Sizes of the encoder's output.  For [n] input bytes the
    allocating variant returns a text of [2 + 2n] characters, without a
    terminator.  The buffer-filling variant stores that text and then a
    terminator, [3 + 2n] bytes in all: the rest of the buffer keeps its
    contents, and a buffer of fewer bytes is overrun. *)
Theorem esc_bin_sizes (b : std_string) (buffer : list byte) :
  exists text : std_string,
    esc_bin b = Return text
    /\ length text = (2 + 2 * length b)%nat
    /\ length (text ++ [x00]) = (3 + 2 * length b)%nat
    /\ esc_bin_into b buffer
       = if decide (3 + 2 * length b <= length buffer)%nat
         then Return ((text ++ [x00]) ++ drop (3 + 2 * length b) buffer)
         else Undefined.
Proof.
  exists (prefix ++ hex_text b).
  assert (Hlen : length (prefix ++ hex_text b) = (2 + 2 * length b)%nat).
  { rewrite length_app, length_hex_text. reflexivity. }
  split; [apply esc_bin_spec|]. split; [exact Hlen|]. split.
  - rewrite length_app, Hlen. simpl. lia.
  - rewrite esc_bin_into_spec. destruct (decide _); [|reflexivity].
    now rewrite <- !app_assoc.
Qed.

(** C4.  The encoder never fails.  Its output is the prefix followed, for
    each input byte in order, by the two lowercase hex digits of that
    byte, high digit first, and nothing else.  The output is this
    function of the input alone, so repeated calls agree. *)
Theorem esc_bin_format (b : std_string) :
  esc_bin b = Return (prefix ++ flat_map hex_pair b)
  /\ Forall (fun c : byte =>
              exists h l : byte,
                hex_pair c = [h; l]
                /\ is_lower_hex_digit h = true /\ is_lower_hex_digit l = true
                /\ (16 * digit_value h + digit_value l)%Z = code c) b.
Proof.
  split; [apply esc_bin_spec|].
  apply Forall_forall. intros c _. apply hex_pair_digits.
Qed.

(** C5.  The decoder takes hex digits in either case: on well-formed
    text it succeeds, with the same bytes as on the lowercased text.
    The encoder, for its part, emits lowercase digits only. *)
Theorem unesc_bin_case_insensitive (s : std_string) :
  well_formed s = true ->
  (exists bytes : std_string,
      unesc_bin s = Return bytes /\ unesc_bin (lowercase s) = Return bytes)
  /\ (forall b : std_string,
        exists digits : std_string,
          esc_bin b = Return (prefix ++ digits)
          /\ forallb is_lower_hex_digit digits = true).
Proof.
  intros Hwf. split.
  - destruct (well_formed_inv s Hwf) as (digits & -> & Heven & Hhex).
    exists (pair_values digits). split.
    + rewrite unesc_bin_prefixed by assumption. now rewrite Hhex.
    + rewrite lowercase_prefixed.
      rewrite unesc_bin_prefixed by (now rewrite length_lowercase).
      rewrite lowercase_hex_digits, Hhex.
      now rewrite lowercase_pair_values.
  - intros b. exists (hex_text b). split; [apply esc_bin_spec | apply hex_text_lower].
Qed.

Lemma unesc_bin_case_insensitive_witness :
  well_formed ["\"; "x"; "4"; "A"; "f"; "F"]%byte = true
  /\ exists bytes : std_string,
       unesc_bin ["\"; "x"; "4"; "A"; "f"; "F"]%byte = Return bytes
       /\ unesc_bin (lowercase ["\"; "x"; "4"; "A"; "f"; "F"]%byte) = Return bytes.
Proof.
  split; [reflexivity|].
  apply (unesc_bin_case_insensitive ["\"; "x"; "4"; "A"; "f"; "F"]%byte).
  reflexivity.
Defined.

(** C9.  Reverse round trip: canonical text, that is well-formed text
    whose digits are all lowercase, decodes to bytes that encode to the
    same text again. *)
Theorem esc_bin_unesc_bin (s : std_string) :
  canonical s = true ->
  (bytes ← unesc_bin s; esc_bin bytes) = Return s.
Proof.
  unfold canonical. rewrite andb_true_iff. intros [Hwf Hlow].
  destruct (well_formed_inv s Hwf) as (digits & -> & Heven & Hhex).
  change (drop 2 (prefix ++ digits)) with digits in Hlow.
  rewrite unesc_bin_prefixed by assumption.
  rewrite Hhex, bind_Return, esc_bin_spec.
  now rewrite hex_text_pair_values.
Qed.

Lemma esc_bin_unesc_bin_witness :
  canonical ["\"; "x"; "0"; "0"; "f"; "e"]%byte = true
  /\ (bytes ← unesc_bin ["\"; "x"; "0"; "0"; "f"; "e"]%byte; esc_bin bytes)
     = Return ["\"; "x"; "0"; "0"; "f"; "e"]%byte.
Proof.
  split; [reflexivity|].
  apply (esc_bin_unesc_bin ["\"; "x"; "0"; "0"; "f"; "e"]%byte).
  reflexivity.
Defined.

(** ** Descriptions *)

Lemma length_description_text (class_name obj_name : std_string) :
  length (description_text class_name obj_name)
  = match obj_name with
    | [] => length class_name
    | _ => (length class_name + 2 + length obj_name + 1)%nat
    end.
Proof.
  unfold description_text. destruct obj_name as [|o rest].
  - now rewrite decide_True.
  - rewrite decide_False by discriminate. rewrite !length_app. simpl. lia.
Qed.

(** With the limits in the model: when the described buffer is a string
    the implementation can hold, [describe] throws if the request to
    [reserve], computed on [std::size_t], is above [max_size()], and
    otherwise does what [describe] above does. *)
Lemma limited_describe_spec (size_max max_size : nat)
    (buf class_name obj_name : std_string) (headroom : nat) :
  (max_size <= size_max)%nat ->
  (length buf + length (description_text class_name obj_name) <= max_size)%nat ->
  limited.describe size_max max_size buf class_name obj_name headroom
  = if decide ((length buf + length (description_text class_name obj_name) + headroom)
                 mod S size_max <= max_size)%nat
    then Return (buf ++ description_text class_name obj_name)
    else Throw length_error.
Proof.
  intros Hmax Hfits. rewrite <- (describe_spec buf class_name obj_name headroom).
  rewrite length_description_text in *.
  unfold limited.describe, describe, limited.plus, limited.reserve, limited.resize,
    reserve.
  destruct obj_name as [|o rest].
  - rewrite (Nat.mod_small (length buf + length class_name)) by lia.
    destruct (decide (_ <= max_size)%nat) as [Hok|Hbig].
    + rewrite decide_False by lia. rewrite bind_Return.
      rewrite decide_False by lia. now rewrite bind_Return.
    + now rewrite decide_True by lia.
  - set (olen := length (o :: rest)) in *.
    rewrite (Nat.mod_small (length buf + length class_name)) by lia.
    rewrite (Nat.mod_small (length buf + length class_name + 2)) by lia.
    rewrite (Nat.mod_small (length buf + length class_name + 2 + olen)) by lia.
    rewrite (Nat.mod_small (length buf + length class_name + 2 + olen + 1)) by lia.
    replace (length buf + (length class_name + 2 + olen + 1) + headroom)%nat
      with (length buf + length class_name + 2 + olen + 1 + headroom)%nat by lia.
    destruct (decide (_ <= max_size)%nat) as [Hok|Hbig].
    + rewrite decide_False by lia. rewrite bind_Return.
      rewrite decide_False by lia. now rewrite bind_Return.
    + now rewrite decide_True by lia.
Qed.

(** C10.  [description()] gives the class name alone when the object has
    no name, and the class name, a space and the name in single quotes
    otherwise.  [describe] appends that text to the caller's buffer and
    leaves what the buffer held before in place, whenever the
    implementation can hold the resulting string and accepts the
    request for it and the headroom; a request above [max_size()] makes
    [reserve] throw [std::length_error] instead. *)
Theorem description_format (default_headroom headroom size_max max_size : nat)
    (obj : namedclass) (buf class_name obj_name : std_string) :
  description default_headroom obj
  = Return (if decide (name obj = []) then classname obj
            else classname obj ++ [" "; "'"]%byte ++ name obj ++ ["'"]%byte)
  /\ ((max_size <= size_max)%nat ->
      (length buf + length (description_text class_name obj_name) <= max_size)%nat ->
      limited.describe size_max max_size buf class_name obj_name headroom
      = if decide ((length buf + length (description_text class_name obj_name)
                    + headroom) mod S size_max <= max_size)%nat
        then Return (buf ++ (if decide (obj_name = []) then class_name
                             else class_name ++ [" "; "'"]%byte ++ obj_name
                                  ++ ["'"]%byte))
        else Throw length_error).
Proof.
  split.
  - unfold description. destruct (name obj) as [|o rest] eqn:Hname.
    + now rewrite decide_True.
    + rewrite describe_spec. unfold description_text. reflexivity.
  - intros Hmax Hfits. now apply limited_describe_spec.
Qed.

Lemma description_format_witness :
  ((1000 <= 4095)%nat
   /\ (length ["o"; "n"; " "]%byte
       + length (description_text ["c"; "u"; "r"]%byte ["x"]%byte) <= 1000)%nat)
  /\ limited.describe 4095 1000 ["o"; "n"; " "]%byte ["c"; "u"; "r"]%byte ["x"]%byte 16
     = Return ["o"; "n"; " "; "c"; "u"; "r"; " "; "'"; "x"; "'"]%byte.
Proof.
  split; [split; vm_compute; lia|].
  apply (description_format 0 16 4095 1000 {| classname := []; name := [] |}
           ["o"; "n"; " "]%byte ["c"; "u"; "r"]%byte ["x"]%byte);
    vm_compute; lia.
Defined.

(** A headroom that takes the request above [max_size()] throws, and one
    that wraps around on [std::size_t] is accepted again. *)
Example describe_headroom_too_large :
  limited.describe 4095 1000 [] ["c"; "u"; "r"]%byte [] 998 = Throw length_error.
Proof. reflexivity. Qed.

Example describe_headroom_wraps :
  limited.describe 4095 1000 [] ["c"; "u"; "r"]%byte [] 4094 = Return ["c"; "u"; "r"]%byte.
Proof. reflexivity. Qed.

Example description_named :
  description 0 {| classname := ["c"; "u"; "r"]%byte; name := ["x"]%byte |}
  = Return ["c"; "u"; "r"; " "; "'"; "x"; "'"]%byte.
Proof. reflexivity. Qed.

(** ** The gate *)

Section GateClaims.
Context {result params exn transaction_base conn : Type}.
Context (C : connection.ops result params exn transaction_base conn).

(** C6.  The gate's [unregister_transaction] is [noexcept]: whatever the
    connection's own operation does, for every transaction and every
    state of the connection, no exception leaves the gate's. *)
Theorem unregister_transaction_never_raises
    (t : transaction_base) (x : callgate conn) :
  raises (fst (connection_transaction.unregister_transaction t x)) = false.
Proof. apply noexcept_never_raises. Qed.

(** C8.  Every gate operation is a pure pass-through of the connection
    operation of the same name: it completes as that operation does on
    the same arguments, failures included, and leaves the connection as
    that operation leaves it.  This is over a connection whose own
    [unregister_transaction] lets no exception escape, as unregistering
    must; the gate declares its [unregister_transaction] [noexcept]. *)
Theorem gate_passes_through
    (query line var value statement : std_string) (args : params)
    (t : transaction_base) :
  (forall c : conn, raises (fst (connection.unregister_transaction t c)) = false) ->
  passes_through (connection_transaction.exec query) (connection.exec query)
  /\ passes_through (connection_transaction.exec_params query args)
       (connection.exec_params query args)
  /\ passes_through (connection_transaction.exec_prepared statement args)
       (connection.exec_prepared statement args)
  /\ passes_through (connection_transaction.register_transaction t)
       (connection.register_transaction t)
  /\ passes_through (connection_transaction.unregister_transaction t)
       (connection.unregister_transaction t)
  /\ passes_through (connection_transaction.read_copy_line line)
       (connection.read_copy_line line)
  /\ passes_through (connection_transaction.write_copy_line line)
       (connection.write_copy_line line)
  /\ passes_through connection_transaction.end_copy_write connection.end_copy_write
  /\ passes_through (connection_transaction.raw_get_var var) (connection.raw_get_var var)
  /\ passes_through (connection_transaction.raw_set_var var value)
       (connection.raw_set_var var value).
Proof.
  intros Hquiet.
  assert (Hun : passes_through (connection_transaction.unregister_transaction t)
                  (connection.unregister_transaction t)).
  { intros x.
    destruct (noexcept_on_home (connection.unregister_transaction t) x) as [Hfst Hsnd].
    split; [|exact Hsnd].
    unfold connection_transaction.unregister_transaction.
    rewrite Hfst. now rewrite Hquiet. }
  repeat split; first [ now apply on_home_passes_through | now apply Hun ].
Qed.

End GateClaims.

Lemma gate_passes_through_witness :
  (forall c : session nat unit,
      raises (fst (connection.unregister_transaction (ops := sample_registry) 1%nat c))
      = false)
  /\ passes_through
       (connection_transaction.register_transaction (C := sample_registry) 1%nat)
       (connection.register_transaction (ops := sample_registry) 1%nat)
  /\ passes_through
       (connection_transaction.unregister_transaction (C := sample_registry) 1%nat)
       (connection.unregister_transaction (ops := sample_registry) 1%nat).
Proof.
  assert (Hquiet : forall c : session nat unit,
    raises (fst (connection.unregister_transaction (ops := sample_registry) 1%nat c))
    = false).
  { intros [[o|] d b]; cbn; unfold registry_unregister; cbn; [|reflexivity].
    destruct (decide (o = 1%nat)); reflexivity. }
  split; [exact Hquiet|].
  pose proof (gate_passes_through sample_registry [] [] [] [] [] tt 1%nat Hquiet)
    as (_ & _ & _ & Hreg & Hun & _).
  split; [exact Hreg | exact Hun].
Defined.

Section RegistryClaims.
Context {result params exn transaction_base backend : Type}.
Context `{EqDecision transaction_base}.
Context (already_registered : exn).
Context (B : connection.ops result params exn transaction_base backend).

Local Abbreviation R := (registry_connection already_registered B).

(** C7.  On the connection's registration slot, through the gate:
    registering throws the protocol-misuse error exactly when the slot
    is occupied, and then leaves it as it is; on an empty slot it
    returns and the slot holds the transaction.  Once the registered
    transaction has unregistered, the slot is empty and registering
    another transaction succeeds. *)
Theorem register_transaction_slot
    (x : callgate (session transaction_base backend)) (t t' : transaction_base) :
  (fst (connection_transaction.register_transaction (C := R) t x)
     = Throws already_registered <-> is_Some (slot (home x)))
  /\ (slot (home x) = None ->
      fst (connection_transaction.register_transaction (C := R) t x) = Returns tt
      /\ slot (home (snd (connection_transaction.register_transaction (C := R) t x)))
         = Some t)
  /\ (is_Some (slot (home x)) ->
      snd (connection_transaction.register_transaction (C := R) t x) = x)
  /\ (slot (home x) = Some t ->
      let x1 := snd (connection_transaction.unregister_transaction (C := R) t x) in
      slot (home x1) = None
      /\ fst (connection_transaction.register_transaction (C := R) t' x1) = Returns tt
      /\ slot (home (snd (connection_transaction.register_transaction (C := R) t' x1)))
         = Some t').
Proof.
  destruct x as [[s d b]].
  unfold connection_transaction.register_transaction,
    connection_transaction.unregister_transaction, noexcept, on_home.
  cbn. unfold registry_register, registry_unregister. cbn.
  split; [|split; [|split]].
  - destruct s as [o|]; cbn; split.
    + eauto.
    + reflexivity.
    + discriminate.
    + intros [o Ho]. discriminate Ho.
  - intros ->. split; reflexivity.
  - intros [o ->]. reflexivity.
  - intros ->. cbn. rewrite decide_True by reflexivity. cbn.
    repeat split.
Qed.

(** Unregistering on the slot-keeping connection always returns; with an
    identity other than the occupant's the slot stays as it is. *)
Lemma registry_unregister_returns
    (x : callgate (session transaction_base backend)) (t : transaction_base) :
  fst (connection_transaction.unregister_transaction (C := R) t x) = Returns tt
  /\ (slot (home x) <> Some t ->
      slot (home (snd (connection_transaction.unregister_transaction (C := R) t x)))
      = slot (home x)).
Proof.
  destruct x as [[s d b]].
  unfold connection_transaction.unregister_transaction, noexcept, on_home.
  cbn. unfold registry_unregister. cbn.
  destruct s as [o|]; [|split; reflexivity].
  destruct (decide (o = t)) as [->|Hne]; split; try reflexivity.
  intros Hdiff. now contradiction Hdiff.
Qed.

End RegistryClaims.

Lemma register_transaction_slot_witness :
  slot (home occupied_gate) = Some 1%nat
  /\ fst (connection_transaction.register_transaction (C := sample_registry) 2%nat
            occupied_gate)
     = Throws connection_lost
  /\ fst (connection_transaction.register_transaction (C := sample_registry) 2%nat
            (snd (connection_transaction.unregister_transaction (C := sample_registry)
                    1%nat occupied_gate)))
     = Returns tt.
Proof.
  pose proof (register_transaction_slot connection_lost broken_connection
                occupied_gate 1%nat 2%nat) as (_ & _ & _ & Hafter).
  pose proof (register_transaction_slot connection_lost broken_connection
                occupied_gate 2%nat 2%nat) as (Hfail & _).
  split; [reflexivity|]. split.
  - apply Hfail. now exists 1%nat.
  - apply (Hafter eq_refl).
Defined.

(** * Further properties of the code *)

(** ** Hex digits *)

Lemma nibble_cases (c : Z) :
  if is_hex_code c then (0 <= nibble c < 16)%Z else nibble c = (-1)%Z.
Proof.
  unfold is_hex_code, nibble.
  change (lit "0") with 48%Z. change (lit "9") with 57%Z.
  change (lit "a") with 97%Z. change (lit "f") with 102%Z.
  change (lit "A") with 65%Z. change (lit "F") with 70%Z.
  destruct (48 <=? c)%Z eqn:E1, (c <=? 57)%Z eqn:E2,
           (97 <=? c)%Z eqn:E3, (c <=? 102)%Z eqn:E4,
           (65 <=? c)%Z eqn:E5, (c <=? 70)%Z eqn:E6; cbn; lia.
Qed.

(** [nibble] gives a value from 0 to 15 on the code of a hex digit, of
    either case, and -1 on every other [int]. *)
Theorem nibble_range (c : Z) :
  if is_hex_code c then (0 <= nibble c < 16)%Z else nibble c = (-1)%Z.
Proof. apply nibble_cases. Qed.

Lemma code_byte_of_int (v : Z) :
  (0 <= v < 256)%Z -> code (byte_of_int v) = v.
Proof.
  intros Hv. unfold code, byte_of_int. rewrite Z.mod_small by assumption.
  destruct (Byte.of_N (Z.to_N v)) as [b|] eqn:E.
  - apply Byte.to_of_N in E. rewrite E. lia.
  - apply Byte.of_N_None_iff in E. lia.
Qed.

(** The byte the decoder stores for two valid digits is
    [16 * hi + lo], which fits in a byte: the cast loses nothing. *)
Theorem decoded_byte_fits (a b : Z) :
  (0 <= nibble a)%Z -> (0 <= nibble b)%Z ->
  Z.lor (Z.shiftl (nibble a) 4) (nibble b) = (16 * nibble a + nibble b)%Z
  /\ code (byte_of_int (Z.lor (Z.shiftl (nibble a) 4) (nibble b)))
     = (16 * nibble a + nibble b)%Z.
Proof.
  intros Ha Hb.
  pose proof (nibble_cases a) as Ra. pose proof (nibble_cases b) as Rb.
  destruct (is_hex_code a); [|lia]. destruct (is_hex_code b); [|lia].
  rewrite lor_shiftl_nibbles by assumption.
  split; [reflexivity|]. apply code_byte_of_int. lia.
Qed.

Lemma decoded_byte_fits_witness :
  ((0 <= nibble 70)%Z /\ (0 <= nibble 57)%Z)
  /\ code (byte_of_int (Z.lor (Z.shiftl (nibble 70) 4) (nibble 57)))
     = (16 * nibble 70 + nibble 57)%Z.
Proof.
  split; [split; vm_compute; discriminate|].
  apply (decoded_byte_fits 70 57); vm_compute; discriminate.
Defined.

(** [hex_digit] is defined on 0 to 15 only; there it gives a lowercase
    digit that [nibble] maps back to the number. *)
Theorem hex_digit_nibble (v : Z) :
  match hex_digit v with
  | Return d =>
      (0 <= v < 16)%Z /\ nibble (int_of_char d) = v /\ is_lower_hex_digit d = true
  | Throw _ => False
  | Undefined => (v < 0 \/ 16 <= v)%Z
  end.
Proof.
  unfold hex_digit. destruct (0 <=? v)%Z eqn:Hpos; [|lia].
  destruct (decide (v < 16)%Z) as [Hlt|Hge].
  - assert (Hv : ∃ n : nat, (n < 16)%nat ∧ v = Z.of_nat n)
      by (exists (Z.to_nat v); lia).
    destruct Hv as (n & Hn & ->). rewrite Nat2Z.id.
    do 16 (destruct n as [|n]; [cbn; repeat split; lia|]). lia.
  - rewrite (proj2 (lookup_ge_None hex (Z.to_nat v))); [lia|].
    change (length hex) with 16%nat. lia.
Qed.

(** The other way round, the digit of a nibble is the character it came
    from, lowercased. *)
Theorem nibble_hex_digit (c : byte) :
  is_hex_digit c = true ->
  hex_digit (nibble (int_of_char c)) = Return (to_lower c).
Proof. destruct c; try discriminate; reflexivity. Qed.

Lemma nibble_hex_digit_witness :
  is_hex_digit "E" = true
  /\ hex_digit (nibble (int_of_char "E")) = Return (to_lower "E").
Proof. split; [reflexivity | apply (nibble_hex_digit "E"); reflexivity]. Defined.

(** ** The encoder *)

Lemma hex_text_app (a b : std_string) :
  hex_text (a ++ b) = hex_text a ++ hex_text b.
Proof. apply flat_map_app. Qed.

(** Encoding a concatenation: the text of the first part, then the
    digits of the second. *)
Theorem esc_bin_app (a b : std_string) :
  esc_bin (a ++ b)
  = (ta ← esc_bin a; tb ← esc_bin b; Return (ta ++ drop 2 tb)).
Proof.
  rewrite !esc_bin_spec, !bind_Return, hex_text_app.
  change (drop 2 (prefix ++ hex_text b)) with (hex_text b).
  now rewrite <- app_assoc.
Qed.

(** Different byte sequences never encode to the same text. *)
Theorem esc_bin_injective (a b : std_string) :
  esc_bin a = esc_bin b -> a = b.
Proof.
  rewrite !esc_bin_spec. intros H.
  assert (Htext : hex_text a = hex_text b) by (injection H; auto).
  rewrite <- (pair_values_hex_text a), <- (pair_values_hex_text b).
  now rewrite Htext.
Qed.

Lemma esc_bin_injective_witness :
  esc_bin [x00; xff]%byte = esc_bin [x00; xff]%byte
  /\ [x00; xff]%byte = [x00; xff]%byte.
Proof.
  split; [reflexivity|].
  apply (esc_bin_injective [x00; xff]%byte [x00; xff]%byte). reflexivity.
Defined.

(** ** The decoder *)

Lemma to_lower_lower_hex (c : byte) :
  is_hex_digit c = true -> is_lower_hex_digit (to_lower c) = true.
Proof. destruct c; try discriminate; reflexivity. Qed.

Lemma lowercase_lower_hex (digits : std_string) :
  forallb is_hex_digit digits = true ->
  forallb is_lower_hex_digit (lowercase digits) = true.
Proof.
  induction digits as [|c s IH]; [reflexivity|].
  unfold lowercase in *. cbn [map forallb]. rewrite !andb_true_iff.
  intros [Hc Hs]. split; [now apply to_lower_lower_hex | auto].
Qed.

(** Decoding and encoding again lowercases well-formed text, and
    changes nothing else. *)
Theorem esc_bin_unesc_bin_lowercases (s : std_string) :
  well_formed s = true ->
  (bytes ← unesc_bin s; esc_bin bytes) = Return (lowercase s).
Proof.
  intros Hwf.
  destruct (well_formed_inv s Hwf) as (digits & -> & Heven & Hhex).
  rewrite unesc_bin_prefixed by assumption.
  rewrite Hhex, bind_Return, esc_bin_spec, lowercase_prefixed.
  rewrite <- (lowercase_pair_values digits Hhex).
  rewrite hex_text_pair_values;
    [reflexivity | now rewrite length_lowercase | now apply lowercase_lower_hex].
Qed.

Lemma esc_bin_unesc_bin_lowercases_witness :
  well_formed ["\"; "x"; "D"; "E"; "a"; "D"]%byte = true
  /\ (bytes ← unesc_bin ["\"; "x"; "D"; "E"; "a"; "D"]%byte; esc_bin bytes)
     = Return (lowercase ["\"; "x"; "D"; "E"; "a"; "D"]%byte).
Proof.
  split; [reflexivity|].
  apply (esc_bin_unesc_bin_lowercases ["\"; "x"; "D"; "E"; "a"; "D"]%byte).
  reflexivity.
Defined.

Lemma unesc_bin_into_early (s : std_string) (buffer : list byte) :
  if decide (length s < 2)%nat
  then unesc_bin_into s buffer = Throw truncated
  else if decide (length s mod 2 <> 0)%nat
  then unesc_bin_into s buffer = Throw invalid_length
  else if decide (take 2 s <> prefix)
  then unesc_bin_into s buffer = Throw missing_prefix
  else exists digits : std_string, s = prefix ++ digits.
Proof.
  destruct (decide (length s < 2)%nat) as [Hshort|Hlen].
  { unfold unesc_bin_into. now rewrite decide_True. }
  destruct (decide (length s mod 2 <> 0)%nat) as [Hodd|Heven].
  { unfold unesc_bin_into. rewrite decide_False by assumption.
    apply Nat.eqb_neq in Hodd. now rewrite Hodd. }
  destruct (decide (take 2 s <> prefix)) as [Hbad|Hpre].
  { apply unesc_bin_into_bad_prefix; [lia | lia | assumption]. }
  exists (drop 2 s). apply take_2_prefix.
  destruct (decide (take 2 s = prefix)); tauto.
Qed.

(** The first three checks come before any store: they need no room in
    the buffer at all. *)
Theorem unesc_bin_into_checks_first (s : std_string) (buffer : list byte) :
  if decide (length s < 2)%nat
  then unesc_bin_into s buffer = Throw truncated
  else if decide (length s mod 2 <> 0)%nat
  then unesc_bin_into s buffer = Throw invalid_length
  else if decide (take 2 s <> prefix)
  then unesc_bin_into s buffer = Throw missing_prefix
  else exists digits : std_string, s = prefix ++ digits.
Proof. apply unesc_bin_into_early. Qed.

(** In a buffer with room, the decoder's outcome on text of two
    characters or more. *)
Lemma unesc_bin_into_checked (s : std_string) (buffer : list byte) :
  (2 <= length s)%nat ->
  ((length s - 2) / 2 <= length buffer)%nat ->
  unesc_bin_into s buffer
  = if decide (length s mod 2 <> 0)%nat then Throw invalid_length
    else if decide (take 2 s <> prefix) then Throw missing_prefix
    else if forallb is_hex_digit (drop 2 s)
         then Return (pair_values (drop 2 s) ++ drop ((length s - 2) / 2) buffer)
         else Throw invalid_hex.
Proof.
  intros Hlen Hfit.
  pose proof (unesc_bin_into_early s buffer) as Hfirst.
  rewrite decide_False in Hfirst by lia.
  destruct (decide (length s mod 2 <> 0)%nat) as [Hodd|Heven]; [exact Hfirst|].
  destruct (decide (take 2 s <> prefix)) as [Hbad|Hpre]; [exact Hfirst|].
  destruct Hfirst as (digits & ->).
  change (drop 2 (prefix ++ digits)) with digits.
  assert (Hd : (length digits mod 2 = 0)%nat).
  { rewrite length_app in Heven. change (length prefix) with 2%nat in Heven.
    cbn [Nat.add] in Heven. rewrite mod2_SS in Heven. lia. }
  assert (Hout : length (pair_values digits) = ((length (prefix ++ digits) - 2) / 2)%nat).
  { rewrite length_pair_values, length_app. change (length prefix) with 2%nat.
    f_equal. lia. }
  rewrite unesc_bin_into_prefixed by (rewrite ?Hout; assumption).
  now rewrite Hout.
Qed.

(** The allocating decoder never leaves its own buffer: on text of two
    characters or more it throws one of the three remaining errors or
    returns the decoded bytes, and nothing but them. *)
Theorem unesc_bin_outcome (s : std_string) :
  (2 <= length s)%nat ->
  unesc_bin s
  = if decide (length s mod 2 <> 0)%nat then Throw invalid_length
    else if decide (take 2 s <> prefix) then Throw missing_prefix
    else if forallb is_hex_digit (drop 2 s)
         then Return (pair_values (drop 2 s))
         else Throw invalid_hex.
Proof.
  intros Hlen. unfold unesc_bin, size_unesc_bin.
  rewrite unesc_bin_into_checked by (rewrite ?length_resize; lia).
  repeat (destruct (decide _); [reflexivity|]).
  destruct (forallb is_hex_digit (drop 2 s)); [|reflexivity].
  rewrite (drop_ge (resize _ _ _)) by (rewrite length_resize; lia).
  now rewrite app_nil_r.
Qed.

Lemma unesc_bin_outcome_witness :
  (2 <= length ["\"; "x"; "0"; "g"]%byte)%nat
  /\ unesc_bin ["\"; "x"; "0"; "g"]%byte = Throw invalid_hex.
Proof.
  split; [vm_compute; lia|].
  apply (unesc_bin_outcome ["\"; "x"; "0"; "g"]%byte). vm_compute; lia.
Defined.

Lemma pair_values_app (good rest : std_string) :
  (length good mod 2 = 0)%nat ->
  pair_values (good ++ rest) = pair_values good ++ pair_values rest.
Proof.
  induction good as [| c | h l s IH] using pair_ind; intros Heven.
  - reflexivity.
  - discriminate.
  - cbn [length] in Heven. rewrite mod2_SS in Heven.
    cbn [app pair_values]. now rewrite IH.
Qed.

(** Over a run of valid digits the loop stores their values and goes
    on with what follows. *)
Lemma unesc_bin_loop_app (good rest : std_string) (out : cursor) :
  (length good mod 2 = 0)%nat ->
  forallb is_hex_digit good = true ->
  unesc_bin_loop (good ++ rest) out
  = (out ← put_all (pair_values good) out; unesc_bin_loop rest out).
Proof.
  revert out.
  induction good as [| c | h l s IH] using pair_ind; intros out Heven Hhex.
  - reflexivity.
  - discriminate.
  - cbn [length] in Heven. rewrite mod2_SS in Heven.
    cbn [forallb] in Hhex. rewrite !andb_true_iff in Hhex.
    destruct Hhex as (Hh & Hl & Hs).
    cbn [app unesc_bin_loop pair_values put_all].
    rewrite !nibble_digit, Hh, Hl, !digit_not_negative, stored_pair_value.
    destruct (put _ out) as [out'| |]; [|reflexivity|reflexivity].
    rewrite !bind_Return. now apply IH.
Qed.

(** A buffer with less room than the valid digits need is overrun, even
    when a character further on is no digit: the decoder does not check
    the whole text before it stores. *)
Theorem unesc_bin_into_overrun (good rest : std_string) (buffer : list byte) :
  (length good mod 2 = 0)%nat ->
  (length rest mod 2 = 0)%nat ->
  forallb is_hex_digit good = true ->
  (length buffer < length good / 2)%nat ->
  unesc_bin_into (prefix ++ good ++ rest) buffer = Undefined.
Proof.
  intros Hgood Hrest Hhex Hsmall.
  unfold unesc_bin_into, prefix. cbn [app length next].
  rewrite decide_False by lia.
  rewrite mod2_SS, length_app.
  assert (Hsum : ((length good + length rest) mod 2 = 0)%nat).
  { rewrite Nat.Div0.add_mod, Hgood, Hrest. reflexivity. }
  rewrite Hsum. cbn [Nat.eqb negb]. rewrite bind_Return.
  replace (Byte.eqb "\" "\") with true by reflexivity.
  cbn [negb next]. rewrite bind_Return.
  replace (Byte.eqb "x" "x") with true by reflexivity.
  cbn [negb].
  rewrite unesc_bin_loop_app by assumption.
  rewrite put_all_out_of_range; [reflexivity|].
  rewrite length_pair_values. lia.
Qed.

Lemma unesc_bin_into_overrun_witness :
  ((length ["4"; "1"; "4"; "2"]%byte mod 2 = 0)%nat
   /\ (length ["z"; "z"]%byte mod 2 = 0)%nat
   /\ forallb is_hex_digit ["4"; "1"; "4"; "2"]%byte = true
   /\ (length [x00] < length ["4"; "1"; "4"; "2"]%byte / 2)%nat)
  /\ unesc_bin_into (prefix ++ ["4"; "1"; "4"; "2"]%byte ++ ["z"; "z"]%byte) [x00]
     = Undefined.
Proof.
  split; [repeat split; vm_compute; lia|].
  apply (unesc_bin_into_overrun ["4"; "1"; "4"; "2"]%byte ["z"; "z"]%byte [x00]);
    (reflexivity || (vm_compute; lia)).
Defined.

(** Decoding well-formed text followed by more digit pairs: the bytes
    of the text, then the bytes of the pairs. *)
Theorem unesc_bin_app (s digits : std_string) :
  well_formed s = true ->
  well_formed (prefix ++ digits) = true ->
  unesc_bin (s ++ digits)
  = (a ← unesc_bin s; b ← unesc_bin (prefix ++ digits); Return (a ++ b)).
Proof.
  intros Hs Hd.
  destruct (well_formed_inv s Hs) as (ds & -> & Heven & Hhex).
  rewrite well_formed_prefixed, andb_true_iff, bool_decide_eq_true in Hd.
  destruct Hd as [Heven' Hhex'].
  rewrite <- app_assoc.
  rewrite !unesc_bin_prefixed;
    [| assumption | assumption
     | rewrite length_app, Nat.Div0.add_mod, Heven, Heven'; reflexivity ].
  rewrite forallb_app, Hhex, Hhex'. cbn [andb].
  rewrite !bind_Return. now rewrite pair_values_app.
Qed.

Lemma unesc_bin_app_witness :
  (well_formed ["\"; "x"; "0"; "1"]%byte = true
   /\ well_formed (prefix ++ ["F"; "f"]%byte) = true)
  /\ unesc_bin (["\"; "x"; "0"; "1"]%byte ++ ["F"; "f"]%byte)
     = (a ← unesc_bin ["\"; "x"; "0"; "1"]%byte;
        b ← unesc_bin (prefix ++ ["F"; "f"]%byte); Return (a ++ b)).
Proof.
  split; [split; reflexivity|].
  apply (unesc_bin_app ["\"; "x"; "0"; "1"]%byte ["F"; "f"]%byte); reflexivity.
Defined.

(** ** Descriptions *)

(** [description()] takes a shortcut for a nameless object, but it
    gives what [describe] puts into an empty buffer, named object or
    not, for every headroom whose request the string accepts; for any
    other [describe] throws. *)
Theorem description_is_describe (default_headroom headroom size_max max_size : nat)
    (obj : namedclass) :
  (max_size <= size_max)%nat ->
  (length (description_text (classname obj) (name obj)) <= max_size)%nat ->
  limited.describe size_max max_size [] (classname obj) (name obj) headroom
  = if decide ((length (description_text (classname obj) (name obj)) + headroom)
                 mod S size_max <= max_size)%nat
    then description default_headroom obj
    else Throw length_error.
Proof.
  intros Hmax Hfits.
  rewrite limited_describe_spec by (cbn [length]; lia).
  cbn [length Nat.add app].
  destruct (decide _) as [Hok|Hbig]; [|reflexivity].
  unfold description, description_text.
  destruct (name obj) as [|o rest] eqn:Hname.
  - now rewrite decide_True.
  - rewrite describe_spec. unfold description_text. reflexivity.
Qed.

Lemma description_is_describe_witness :
  ((1000 <= 4095)%nat
   /\ (length (description_text ["c"; "u"; "r"]%byte []) <= 1000)%nat)
  /\ limited.describe 4095 1000 [] ["c"; "u"; "r"]%byte [] 32
     = description 0 {| classname := ["c"; "u"; "r"]%byte; name := [] |}.
Proof.
  split; [split; vm_compute; lia|].
  apply (description_is_describe 0 32 4095 1000
           {| classname := ["c"; "u"; "r"]%byte; name := [] |});
    vm_compute; lia.
Defined.

(** Describing twice into one buffer appends the two descriptions in
    order after what the buffer held, when the string can hold the
    result and accepts both requests. *)
Theorem describe_describe (size_max max_size : nat)
    (buf class1 obj1 class2 obj2 : std_string) (headroom1 headroom2 : nat) :
  (max_size <= size_max)%nat ->
  (length buf + length (description_text class1 obj1)
   + length (description_text class2 obj2) <= max_size)%nat ->
  ((length buf + length (description_text class1 obj1) + headroom1)
     mod S size_max <= max_size)%nat ->
  ((length buf + length (description_text class1 obj1)
    + length (description_text class2 obj2) + headroom2)
     mod S size_max <= max_size)%nat ->
  (buf ← limited.describe size_max max_size buf class1 obj1 headroom1;
   limited.describe size_max max_size buf class2 obj2 headroom2)
  = Return (buf ++ description_text class1 obj1 ++ description_text class2 obj2).
Proof.
  intros Hmax Hfits Hfirst Hsecond.
  rewrite limited_describe_spec by lia.
  rewrite decide_True by assumption. rewrite bind_Return.
  rewrite limited_describe_spec by (rewrite ?length_app; lia).
  rewrite length_app, decide_True by assumption.
  now rewrite <- app_assoc.
Qed.

Lemma describe_describe_witness :
  ((1000 <= 4095)%nat
   /\ (length ["-"]%byte + length (description_text ["a"]%byte ["x"]%byte)
       + length (description_text ["b"]%byte []) <= 1000)%nat
   /\ ((length ["-"]%byte + length (description_text ["a"]%byte ["x"]%byte) + 8)
         mod 4096 <= 1000)%nat
   /\ ((length ["-"]%byte + length (description_text ["a"]%byte ["x"]%byte)
        + length (description_text ["b"]%byte []) + 4095) mod 4096 <= 1000)%nat)
  /\ (buf ← limited.describe 4095 1000 ["-"]%byte ["a"]%byte ["x"]%byte 8;
      limited.describe 4095 1000 buf ["b"]%byte [] 4095)
     = Return ["-"; "a"; " "; "'"; "x"; "'"; "b"]%byte.
Proof.
  split; [repeat split; vm_compute; lia|].
  apply (describe_describe 4095 1000 ["-"]%byte ["a"]%byte ["x"]%byte ["b"]%byte [] 8 4095);
    vm_compute; lia.
Defined.

(** A description does not tell a named object from a nameless one
    whose class name already ends in a quoted name. *)
Theorem description_ambiguous (default_headroom : nat)
    (class_name : std_string) (o : byte) (rest : std_string) :
  description default_headroom {| classname := class_name; name := o :: rest |}
  = description default_headroom
      {| classname := class_name ++ [" "; "'"]%byte ++ (o :: rest) ++ ["'"]%byte;
         name := [] |}.
Proof.
  unfold description. cbn [name classname].
  rewrite describe_spec. unfold description_text.
  now rewrite decide_False by discriminate.
Qed.

(** ** Thread safety *)

(** The flags and the text of the model agree: what the function adds
    to the description is one note for each flag that is false, libpq's
    first, and nothing for a flag that is true.  The Kerberos flag is
    false whatever libpq says. *)
Theorem describe_thread_safety_consistent (PQisthreadsafe : Z)
    (fresh : thread_safety.thread_safety_model) :
  let model := describe_thread_safety PQisthreadsafe fresh in
  thread_safety.safe_kerberos model = false
  /\ thread_safety.safe_libpq model = negb (PQisthreadsafe =? 0)%Z
  /\ thread_safety.description model
     = thread_safety.description fresh
       ++ (if thread_safety.safe_libpq model then [] else libpq_not_thread_safe)
       ++ (if thread_safety.safe_kerberos model then [] else kerberos_not_thread_safe).
Proof.
  unfold describe_thread_safety.
  destruct (PQisthreadsafe =? 0)%Z; cbn [thread_safety.safe_kerberos
    thread_safety.safe_libpq thread_safety.description negb];
    repeat split; now rewrite <- ?app_assoc.
Qed.

(** ** The gate *)

(** Over a connection whose own [unregister_transaction] does not throw,
    the gate's is a pure pass-through like the other operations. *)
Theorem unregister_transaction_passes_through
    {result params exn transaction_base conn : Type}
    (C : connection.ops result params exn transaction_base conn)
    (t : transaction_base) :
  (forall c : conn, raises (fst (connection.unregister_transaction t c)) = false) ->
  passes_through (connection_transaction.unregister_transaction t)
    (connection.unregister_transaction t).
Proof.
  intros Hquiet x.
  destruct (noexcept_on_home (connection.unregister_transaction t) x) as [Hfst Hsnd].
  split; [|exact Hsnd].
  unfold connection_transaction.unregister_transaction.
  rewrite Hfst. now rewrite Hquiet.
Qed.

Lemma unregister_transaction_passes_through_witness :
  (forall c : session nat unit,
      raises (fst (connection.unregister_transaction (ops := sample_registry) 1%nat c))
      = false)
  /\ passes_through
       (connection_transaction.unregister_transaction (C := sample_registry) 1%nat)
       (connection.unregister_transaction (ops := sample_registry) 1%nat).
Proof.
  assert (Hquiet : forall c : session nat unit,
    raises (fst (connection.unregister_transaction (ops := sample_registry) 1%nat c))
    = false).
  { intros [[o|] d b]; cbn; unfold registry_unregister; cbn; [|reflexivity].
    destruct (decide (o = 1%nat)); reflexivity. }
  split; [exact Hquiet|].
  apply (unregister_transaction_passes_through sample_registry 1%nat Hquiet).
Defined.
